(* ===================================================================== *)
(* gedcom-viewer: the GEDCOM field parsers and the relationship graph    *)
(*                                                                       *)
(* A shallow embedding of                                                *)
(*   - GedcomParser.parseName / normalizeSex / parseDate / monthToNumber *)
(*   - RelationshipGraphBuilder.build / getAncestors /                   *)
(*     getImmediateFamily                                                *)
(* and the properties the specification states about them.               *)
(*                                                                       *)
(* JavaScript values are modelled as follows.                            *)
(*   - A string is a Rocq [string]: its characters when the text is      *)
(*     ASCII, the bytes of its UTF-8 form otherwise. Comparing, testing  *)
(*     for emptiness, cutting at a slash or at a space are the same on   *)
(*     either. [trim], [toUpperCase], [\s] and the blanks [parseInt]     *)
(*     skips are modelled for ASCII text, where they are exact; what is  *)
(*     proved of the parsed names and dates through them is stated for   *)
(*     ASCII text ([ascii_text]). [normalizeSex] only compares the       *)
(*     upper-cased value with six ASCII words, which no text beyond      *)
(*     ASCII upper-cases to.                                             *)
(*   - An optional field [x?: T] is an [option T]; [undefined] is        *)
(*     [None].                                                           *)
(*   - [Map<string, V>] is a [gmap string V]; [Set<string>] is a         *)
(*     [gset string]. A node object stored in the map and mutated in     *)
(*     place is written back under its key.                              *)
(*   - A number produced by [parseInt] is a [jsnum]: [NaN] or an         *)
(*     integer. The model computes the integer the digits denote, which  *)
(*     is the JavaScript number as long as its magnitude is at most      *)
(*     2^53; what is proved of a parsed number is stated in that range   *)
(*     ([exact_number]).                                                 *)
(* ===================================================================== *)

From Stdlib Require Import ZArith Ascii String.
From stdpp Require Import base option list gmap strings fin_maps fin_sets.

(* --------------------------------------------------------------------- *)
(* Data model (types/gedcom)                                             *)
(* --------------------------------------------------------------------- *)

(** The result of [parseInt]. *)
Inductive jsnum : Type :=
  | NaN
  | Num (z : Z).

(** [DateInfo]: a field that was never assigned is [None]. *)
Record DateInfo : Type := mkDateInfo {
  day : option jsnum;
  month : option jsnum;
  year : option jsnum;
  text : option string
}.

Record LifeEvent : Type := mkLifeEvent {
  date : option DateInfo;
  place : option string;
  confirmed : option bool
}.

(** ['M' | 'F' | 'U' | 'X'] *)
Inductive Sex : Type := M | F | U | X.

(** [Profile]. The field [id] is [profile_id] here. *)
Record Profile : Type := mkProfile {
  profile_id : string;
  firstName : option string;
  lastName : option string;
  sex : option Sex;
  famc : option string;
  fams : option (list string);
  birth : option LifeEvent;
  death : option LifeEvent
}.

(** [Family]. The fields [id] and [children] are [family_id] and
    [family_children] here. *)
Record Family : Type := mkFamily {
  family_id : string;
  husb : option string;
  wife : option string;
  family_children : option (list string);
  marriage : option LifeEvent
}.

(** [GedcomData]. The field [fams] is [data_fams] here. *)
Record GedcomData : Type := mkGedcomData {
  indis : list Profile;
  data_fams : list Family
}.

Inductive Relationship : Type := full | half | step.

(** [ProfileNode]. [spouses] holds (spouseId, familyId), [children]
    holds (childId, familyId), [siblings] holds (siblingId, relationship). *)
Record ProfileNode : Type := mkProfileNode {
  profile : Profile;
  parents : option (list string);
  spouses : list (string * string);
  children : list (string * string);
  siblings : list (string * Relationship)
}.

Record RelationshipGraph : Type := mkRelationshipGraph {
  individuals : gmap string ProfileNode;
  families : gmap string Family
}.

(* --------------------------------------------------------------------- *)
(* JavaScript helpers                                                    *)
(* --------------------------------------------------------------------- *)

(** Truthiness of a string: every string but the empty one. *)
Definition truthy (s : string) : bool :=
  match s with
  | EmptyString => false
  | String _ _ => true
  end.

(** Truthiness of an optional string ([undefined] is falsy). *)
Definition truthy_opt (o : option string) : bool :=
  match o with
  | Some s => truthy s
  | None => false
  end.

(** [x || ''] *)
Definition or_empty (o : option string) : string := default "" o.

(** [a === id] for an optional [a] and a string [id]. *)
Definition strict_eq (a : option string) (i : string) : bool :=
  match a with
  | Some s => bool_decide (s = i)
  | None => false
  end.

(** [xs?.forEach(...)] visits nothing when [xs] is [undefined]. *)
Definition opt_list {A : Type} (o : option (list A)) : list A := default [] o.

(** A [forEach] whose body may fail: the state is threaded from left to
    right and the first failure aborts the loop. *)
Fixpoint forEachM {A S : Type} (f : S → A → option S) (l : list A) (s : S)
  : option S :=
  match l with
  | [] => Some s
  | x :: l' => match f s x with
               | Some s' => forEachM f l' s'
               | None => None
               end
  end.

(* --------------------------------------------------------------------- *)
(* RelationshipGraphBuilder.build                                        *)
(* --------------------------------------------------------------------- *)

(** [new Map(data.fams.map(f => [f.id, f]))]: a later entry with the
    same key replaces the earlier one. *)
Definition families_of (fs : list Family) : gmap string Family :=
  foldl (λ m f, <[family_id f := f]> m) ∅ fs.

(** The node the first pass stores for a profile. *)
Definition basic_node (p : Profile) : ProfileNode :=
  {| profile := p; parents := None; spouses := []; children := [];
     siblings := [] |}.

(** First pass: [individuals.set(profile.id, {...})] for each profile. *)
Definition first_pass (ps : list Profile) : gmap string ProfileNode :=
  foldl (λ m p, <[profile_id p := basic_node p]> m) ∅ ps.

(** The "Add parents" block of the second pass, on the node of [p]. *)
Definition add_parents (fm : gmap string Family) (p : Profile)
    (node : ProfileNode) : ProfileNode :=
  match famc p with
  | Some fc =>
      if truthy fc then
        match fm !! fc with
        | Some family =>
            {| profile := profile node;
               parents :=
                 Some (filter (λ s, truthy s = true)
                              [or_empty (husb family); or_empty (wife family)]);
               spouses := spouses node;
               children := children node;
               siblings :=
                 siblings node ++
                 map (λ siblingId, (siblingId, full))
                     (filter (λ siblingId, siblingId ≠ profile_id p)
                             (opt_list (family_children family))) |}
        | None => node
        end
      else node
  | None => node
  end.

(** [family.husb === profile.id ? family.wife : family.husb] *)
Definition spouse_of (family : Family) (p : Profile) : option string :=
  if strict_eq (husb family) (profile_id p) then wife family else husb family.

(** The body of [profile.fams?.forEach(famId => ...)]. *)
Definition add_family (fm : gmap string Family) (p : Profile)
    (node : ProfileNode) (famId : string) : ProfileNode :=
  match fm !! famId with
  | None => node
  | Some family =>
      let spouseId := spouse_of family p in
      {| profile := profile node;
         parents := parents node;
         spouses :=
           spouses node ++
           (if truthy_opt spouseId then [(or_empty spouseId, famId)] else []);
         children :=
           children node ++
           map (λ childId, (childId, famId))
               (opt_list (family_children family));
         siblings := siblings node |}
  end.

(** Everything the second pass does to the node of [p]. *)
Definition link (fm : gmap string Family) (p : Profile)
    (node : ProfileNode) : ProfileNode :=
  foldl (add_family fm p) (add_parents fm p node) (opt_list (fams p)).

(** One iteration of the second pass. [individuals.get(profile.id)!] is
    modelled as a failure when the key is missing; this is no later than
    the TypeError the first dereference of the node would raise. *)
Definition relate (fm : gmap string Family) (m : gmap string ProfileNode)
    (p : Profile) : option (gmap string ProfileNode) :=
  match m !! profile_id p with
  | Some node => Some (<[profile_id p := link fm p node]> m)
  | None => None
  end.

(** [build(data)]; [None] stands for a raised error. *)
Definition build (data : GedcomData) : option RelationshipGraph :=
  let fm := families_of (data_fams data) in
  match forEachM (relate fm) (indis data) (first_pass (indis data)) with
  | Some m => Some {| individuals := m; families := fm |}
  | None => None
  end.

(* Auxiliary notions used to state what [build] computes. *)

(** The records of a model that carry the id [k], in model order. *)
Definition records (k : string) (ps : list Profile) : list Profile :=
  filter (λ p, profile_id p = k) ps.

(** The second pass applied to the records of one id. *)
Definition link_all (fm : gmap string Family) (rs : list Profile)
    (node : ProfileNode) : ProfileNode :=
  foldl (λ n q, link fm q n) node rs.

(** The profile without the fams entries that are the id of no family
    of [fs]. *)
Definition prune_profile (fs : list Family) (p : Profile) : Profile :=
  {| profile_id := profile_id p; firstName := firstName p;
     lastName := lastName p; sex := sex p; famc := famc p;
     fams := filter (λ famId, famId ∈ family_id <$> fs) <$> fams p;
     birth := birth p; death := death p |}.

Definition prune_fams (data : GedcomData) : GedcomData :=
  {| indis := prune_profile (data_fams data) <$> indis data;
     data_fams := data_fams data |}.

(** The relationship lists of a node. *)
Definition links (node : ProfileNode)
  : option (list string) * list (string * string) * list (string * string)
    * list (string * Relationship) :=
  (parents node, spouses node, children node, siblings node).

(* --------------------------------------------------------------------- *)
(* RelationshipGraphBuilder.getAncestors                                 *)
(* --------------------------------------------------------------------- *)

(** The [generations] argument. A finite number bounds the depth like
    its floor does; NaN and +Infinity never make [depth > generations]
    true and are [Unbounded]; -Infinity behaves like [Finite (-1)]. *)
Inductive Generations : Type :=
  | Finite (g : Z)
  | Unbounded.

(** [depth > generations] *)
Definition exceeds (depth : nat) (generations : Generations) : bool :=
  match generations with
  | Finite g => bool_decide (g < Z.of_nat depth)%Z
  | Unbounded => false
  end.

(** The closure [traverse]; the state is ([visited], [result]). The
    recursion is bounded by [fuel]; [None] means the fuel ran out. *)
Fixpoint traverse (graph : RelationshipGraph) (generations : Generations)
    (fuel : nat) (st : gset string * list Profile) (i : string) (depth : nat)
  : option (gset string * list Profile) :=
  match fuel with
  | O => None
  | S fuel' =>
      if exceeds depth generations || bool_decide (i ∈ st.1) then Some st
      else
        let visited := {[i]} ∪ st.1 in
        match individuals graph !! i with
        | None => Some (visited, st.2)
        | Some node =>
            forEachM
              (λ st' parentId,
                 if truthy parentId
                 then traverse graph generations fuel' st' parentId (S depth)
                 else Some st')
              (opt_list (parents node))
              (visited, st.2 ++ [profile node])
        end
  end.

(** Fuel that always suffices: every call that recurses marks a key of
    the graph that was not marked before. *)
Definition enough_fuel (graph : RelationshipGraph) : nat :=
  S (size (individuals graph)).

(** [getAncestors(profileId, graph, generations)] *)
Definition getAncestors (profileId : string) (graph : RelationshipGraph)
    (generations : Generations) : option (list Profile) :=
  snd <$> traverse graph generations (enough_fuel graph) (∅, []) profileId 0.

(* Notions used to state what a traversal guarantees. *)

(** The keys of the graph that are not yet marked. *)
Definition unvisited (graph : RelationshipGraph) (visited : gset string)
  : nat :=
  size (dom (individuals graph) ∖ visited).

(** Every node is stored under the id of its profile. *)
Definition keyed (graph : RelationshipGraph) : Prop :=
  ∀ k node, individuals graph !! k = Some node →
            profile_id (profile node) = k.

(** The result holds no id twice and only marked ids. *)
Definition tidy (st : gset string * list Profile) : Prop :=
  NoDup (profile_id <$> st.2) ∧ ∀ p, p ∈ st.2 → profile_id p ∈ st.1.

(** What a terminated call guarantees about its final state. *)
Definition extends (graph : RelationshipGraph)
    (st st' : gset string * list Profile) : Prop :=
  st.1 ⊆ st'.1 ∧ (keyed graph → tidy st → tidy st').

(** What the call for one parent of the start does when only one
    generation is asked for: an unmarked non-empty id is marked, and its
    profile is appended when the graph has it. *)
Definition visit_parent (graph : RelationshipGraph)
    (st : gset string * list Profile) (parentId : string)
  : gset string * list Profile :=
  if truthy parentId then
    if bool_decide (parentId ∈ st.1) then st
    else ({[parentId]} ∪ st.1,
          st.2 ++ match individuals graph !! parentId with
                  | Some node => [profile node]
                  | None => []
                  end)
  else st.

(* --------------------------------------------------------------------- *)
(* RelationshipGraphBuilder.getImmediateFamily                           *)
(* --------------------------------------------------------------------- *)

Record ImmediateFamily : Type := mkImmediateFamily {
  if_parents : list Profile;
  if_spouses : list Profile;
  if_children : list Profile;
  if_siblings : list Profile
}.

(** [ids.map(id => graph.individuals.get(id)?.profile).filter(Boolean)] *)
Definition resolve (graph : RelationshipGraph) (ids : list string)
  : list Profile :=
  omap (λ i, profile <$> individuals graph !! i) ids.

Definition getImmediateFamily (profileId : string) (graph : RelationshipGraph)
  : ImmediateFamily :=
  match individuals graph !! profileId with
  | None =>
      {| if_parents := []; if_spouses := []; if_children := [];
         if_siblings := [] |}
  | Some node =>
      {| if_parents := resolve graph (opt_list (parents node));
         if_spouses := resolve graph (map fst (spouses node));
         if_children := resolve graph (map fst (children node));
         if_siblings := resolve graph (map fst (siblings node)) |}
  end.

(* --------------------------------------------------------------------- *)
(* Strings: the String.prototype methods and parseInt                    *)
(* --------------------------------------------------------------------- *)

(** The code unit of a character. *)
Definition code (c : ascii) : N := N_of_ascii c.



Definition upper_char (c : ascii) : ascii :=
  if (97 <=? code c)%N && (code c <=? 122)%N
  then ascii_of_N (code c - 32) else c.

(** [s.toUpperCase()] on ASCII text: the letters a to z are the only
    ASCII characters it changes. *)
Fixpoint toUpperCase (s : string) : string :=
  match s with
  | EmptyString => EmptyString
  | String c s' => String (upper_char c) (toUpperCase s')
  end.




(** [s.split(sep)] for a separator of one character: the pieces between
    the separators, empty pieces included; the empty string gives one
    empty piece. *)
Fixpoint split (sep : ascii) (s : string) : list string :=
  match s with
  | EmptyString => [EmptyString]
  | String c s' =>
      if Ascii.eqb c sep then EmptyString :: split sep s'
      else match split sep s' with
           | piece :: pieces => String c piece :: pieces
           | [] => [String c EmptyString]
           end
  end.






(* --------------------------------------------------------------------- *)
(* Regular expressions: a backtracking matcher for the patterns used     *)
(* --------------------------------------------------------------------- *)

(** A pattern character: a literal, [[^c]], [\s] or [\d]. *)
Inductive atom : Type :=
  | Lit (c : ascii)
  | NotLit (c : ascii)
  | WS
  | Digit.


(** An atom once, [a*] or [a+] (both greedy). *)
Inductive piece : Type :=
  | One (a : atom)
  | Star (a : atom)
  | Plus (a : atom).






(* --------------------------------------------------------------------- *)
(* GedcomParser                                                          *)
(* --------------------------------------------------------------------- *)



(** [normalizeSex(sex)]; the argument is the value of the tag, which
    may be missing. *)
Definition normalizeSex (sex : option string) : option Sex :=
  if truthy_opt sex then
    let s := toUpperCase (or_empty sex) in
    if String.eqb s "M" || String.eqb s "MALE" then Some M
    else if String.eqb s "F" || String.eqb s "FEMALE" then Some F
    else if String.eqb s "X" || String.eqb s "OTHER" then Some X
    else Some U
  else None.





(* Notions used to state what the field parsers compute. *)

(** Equality of two strings up to the case of their letters. *)
Fixpoint same_ignoring_case (s t : string) : bool :=
  match s, t with
  | EmptyString, EmptyString => true
  | String a s', String b t' =>
      Ascii.eqb (upper_char a) (upper_char b) && same_ignoring_case s' t'
  | _, _ => false
  end.
















(* ===================================================================== *)
(* The graph builder                                                     *)
(* ===================================================================== *)

Section Build.

Implicit Types (p q : Profile) (ps : list Profile) (k : string).
Implicit Types (m : gmap string ProfileNode) (fm : gmap string Family).
Implicit Types (node : ProfileNode).

Lemma records_cons k p ps :
  records k (p :: ps) =
  if decide (profile_id p = k) then p :: records k ps else records k ps.
Proof. unfold records. rewrite filter_cons. reflexivity. Qed.

Lemma records_id k ps p : p ∈ records k ps → profile_id p = k.
Proof. unfold records. rewrite list_elem_of_filter. tauto. Qed.

Lemma records_elem k ps p : p ∈ records k ps → p ∈ ps.
Proof. unfold records. rewrite list_elem_of_filter. tauto. Qed.

Lemma records_own p ps : p ∈ ps → p ∈ records (profile_id p) ps.
Proof. unfold records. rewrite list_elem_of_filter. tauto. Qed.

(** With unique ids an id has one record. *)
Lemma records_unique p ps :
  NoDup (profile_id <$> ps) → p ∈ ps → records (profile_id p) ps = [p].
Proof.
  induction ps as [|q ps IH]; intros Hnd Hin.
  - inversion Hin.
  - rewrite fmap_cons in Hnd. apply NoDup_cons in Hnd as [Hq Hnd].
    rewrite records_cons. apply elem_of_cons in Hin as [->|Hin].
    + rewrite decide_True by reflexivity. f_equal.
      destruct (records (profile_id q) ps) as [|r rs] eqn:E; [reflexivity|].
      exfalso. apply Hq.
      assert (Hr : r ∈ records (profile_id q) ps) by (rewrite E; left).
      rewrite <- (records_id _ _ _ Hr).
      apply list_elem_of_fmap_2. eapply records_elem, Hr.
    + rewrite decide_False; [apply IH; assumption|].
      intros Heq. apply Hq. rewrite Heq.
      apply list_elem_of_fmap_2. assumption.
Qed.

(* ---- the families map ---- *)

Lemma families_fold_dom (fs : list Family) fm :
  dom (foldl (λ acc f, <[family_id f := f]> acc) fm fs) =
  dom fm ∪ list_to_set (family_id <$> fs).
Proof.
  revert fm. induction fs as [|f fs IH]; intros fm; simpl.
  - set_solver.
  - rewrite IH, dom_insert_L. set_solver.
Qed.

Lemma families_of_dom (fs : list Family) :
  dom (families_of fs) = list_to_set (family_id <$> fs).
Proof. unfold families_of. rewrite families_fold_dom. set_solver. Qed.

(** A pointer that is the id of no family is not a key of the map. *)
Lemma families_of_None (fs : list Family) k :
  k ∉ family_id <$> fs → families_of fs !! k = None.
Proof.
  intros H. apply not_elem_of_dom. rewrite families_of_dom.
  rewrite elem_of_list_to_set. assumption.
Qed.

Lemma families_of_Some (fs : list Family) k (f : Family) :
  families_of fs !! k = Some f → f ∈ fs ∧ family_id f = k.
Proof.
  unfold families_of.
  assert (H : ∀ (l : list Family) fm0 k f,
    foldl (λ acc f, <[family_id f := f]> acc) fm0 l !! k = Some f →
    fm0 !! k = Some f ∨ (f ∈ l ∧ family_id f = k)).
  { induction l as [|g l IH]; intros fm0 k0 f0 Hl; simpl in Hl.
    - left. assumption.
    - apply IH in Hl as [Hl|[Hl Hid]].
      + destruct (decide (family_id g = k0)) as [<-|Hne].
        * rewrite lookup_insert_eq in Hl. injection Hl as <-.
          right. split; [left|reflexivity].
        * rewrite lookup_insert_ne in Hl by assumption. left. assumption.
      + right. split; [right; assumption|assumption]. }
  intros Hl. apply H in Hl as [Hl|Hl]; [|assumption].
  rewrite lookup_empty in Hl. discriminate.
Qed.

(** With unique family ids every family is found under its id. *)
Lemma families_of_lookup (fs : list Family) (f : Family) :
  NoDup (family_id <$> fs) → f ∈ fs →
  families_of fs !! family_id f = Some f.
Proof.
  intros Hnd Hin.
  assert (Hdom : family_id f ∈ dom (families_of fs)).
  { rewrite families_of_dom, elem_of_list_to_set.
    apply list_elem_of_fmap_2. assumption. }
  apply elem_of_dom in Hdom as [g Hg].
  destruct (families_of_Some _ _ _ Hg) as [Hgin Hgid].
  rewrite Hg. f_equal.
  apply list_elem_of_lookup in Hgin as [i Hi].
  apply list_elem_of_lookup in Hin as [j Hj].
  assert (i = j).
  { eapply NoDup_lookup; [exact Hnd| |].
    - rewrite list_lookup_fmap, Hi. reflexivity.
    - rewrite list_lookup_fmap, Hj. simpl. f_equal. symmetry. assumption. }
  subst j. congruence.
Qed.

(* ---- first pass ---- *)

Lemma first_pass_fold_lookup ps m k :
  foldl (λ acc p, <[profile_id p := basic_node p]> acc) m ps !! k =
  match last (records k ps) with
  | Some p => Some (basic_node p)
  | None => m !! k
  end.
Proof.
  revert m. induction ps as [|p ps IH]; intros m; simpl.
  - reflexivity.
  - rewrite IH, records_cons. destruct (decide (profile_id p = k)) as [<-|Hne].
    + destruct (records (profile_id p) ps) as [|r rs] eqn:E; simpl.
      * apply lookup_insert_eq.
      * rewrite last_cons. destruct (last rs); reflexivity.
    + destruct (last (records k ps)); [reflexivity|].
      apply lookup_insert_ne. assumption.
Qed.

Lemma first_pass_lookup ps k :
  first_pass ps !! k = basic_node <$> last (records k ps).
Proof.
  unfold first_pass. rewrite first_pass_fold_lookup, lookup_empty.
  destruct (last (records k ps)); reflexivity.
Qed.

Lemma first_pass_is_Some ps p :
  p ∈ ps → is_Some (first_pass ps !! profile_id p).
Proof.
  intros Hin. rewrite first_pass_lookup.
  apply records_own in Hin.
  destruct (records (profile_id p) ps) as [|r rs] eqn:E.
  - inversion Hin.
  - rewrite last_cons. destruct (last rs); simpl; eauto.
Qed.

(* ---- second pass ---- *)

Lemma second_pass_spec fm ps m :
  (∀ p, p ∈ ps → is_Some (m !! profile_id p)) →
  ∃ m', forEachM (relate fm) ps m = Some m' ∧
        ∀ k, m' !! k = link_all fm (records k ps) <$> (m !! k).
Proof.
  revert m. induction ps as [|p ps IH]; intros m Hm; simpl.
  - exists m. split; [reflexivity|]. intros k. simpl.
    destruct (m !! k); reflexivity.
  - unfold relate at 1.
    destruct (Hm p) as [node Hnode]; [left|]. rewrite Hnode.
    destruct (IH (<[profile_id p := link fm p node]> m)) as (m' & Hrun & Hm').
    { intros q Hq. destruct (decide (profile_id p = profile_id q)) as [<-|Hne].
      - rewrite lookup_insert_eq. eauto.
      - rewrite lookup_insert_ne by assumption. apply Hm. right. assumption. }
    exists m'. split; [assumption|]. intros k. rewrite Hm', records_cons.
    destruct (decide (profile_id p = k)) as [<-|Hne].
    + rewrite lookup_insert_eq, Hnode. reflexivity.
    + rewrite lookup_insert_ne by assumption. reflexivity.
Qed.

(** What [build] returns: it never fails, and the node under a key is
    the basic node of the key's last record, linked once for each record
    of the key. *)
Lemma build_spec data :
  ∃ g, build data = Some g ∧
       families g = families_of (data_fams data) ∧
       ∀ k, individuals g !! k =
            (λ p, link_all (families_of (data_fams data))
                           (records k (indis data)) (basic_node p))
              <$> last (records k (indis data)).
Proof.
  unfold build.
  destruct (second_pass_spec (families_of (data_fams data)) (indis data)
              (first_pass (indis data))) as (m' & Hrun & Hm').
  { intros p. apply first_pass_is_Some. }
  rewrite Hrun. eexists. split; [reflexivity|]. split; [reflexivity|].
  intros k. simpl. rewrite Hm', first_pass_lookup.
  destruct (last (records k (indis data))); reflexivity.
Qed.

End Build.

(* ---- what one iteration of the second pass leaves alone ---- *)

Lemma add_family_parents fm p node famId :
  parents (add_family fm p node famId) = parents node.
Proof. unfold add_family. destruct (fm !! famId); reflexivity. Qed.

Lemma add_family_siblings fm p node famId :
  siblings (add_family fm p node famId) = siblings node.
Proof. unfold add_family. destruct (fm !! famId); reflexivity. Qed.

Lemma add_family_profile fm p node famId :
  profile (add_family fm p node famId) = profile node.
Proof. unfold add_family. destruct (fm !! famId); reflexivity. Qed.

Lemma add_parents_profile fm p node :
  profile (add_parents fm p node) = profile node.
Proof.
  unfold add_parents. destruct (famc p) as [fc|]; [|reflexivity].
  destruct (truthy fc); [|reflexivity]. destruct (fm !! fc); reflexivity.
Qed.

Lemma add_parents_spouses fm p node :
  spouses (add_parents fm p node) = spouses node.
Proof.
  unfold add_parents. destruct (famc p) as [fc|]; [|reflexivity].
  destruct (truthy fc); [|reflexivity]. destruct (fm !! fc); reflexivity.
Qed.

Lemma add_parents_children fm p node :
  children (add_parents fm p node) = children node.
Proof.
  unfold add_parents. destruct (famc p) as [fc|]; [|reflexivity].
  destruct (truthy fc); [|reflexivity]. destruct (fm !! fc); reflexivity.
Qed.

Lemma fold_add_family_keeps {B : Type} (proj : ProfileNode → B) fm p :
  (∀ node famId, proj (add_family fm p node famId) = proj node) →
  ∀ l node, proj (foldl (add_family fm p) node l) = proj node.
Proof.
  intros Hstep l. induction l as [|famId l IH]; intros node; simpl.
  - reflexivity.
  - rewrite IH. apply Hstep.
Qed.

Lemma link_profile fm p node : profile (link fm p node) = profile node.
Proof.
  unfold link.
  rewrite (fold_add_family_keeps profile) by apply add_family_profile.
  apply add_parents_profile.
Qed.

Lemma link_parents fm p node :
  parents (link fm p node) = parents (add_parents fm p node).
Proof.
  unfold link. apply (fold_add_family_keeps parents), add_family_parents.
Qed.

Lemma link_siblings fm p node :
  siblings (link fm p node) = siblings (add_parents fm p node).
Proof.
  unfold link. apply (fold_add_family_keeps siblings), add_family_siblings.
Qed.

Lemma link_all_cons fm q rs node :
  link_all fm (q :: rs) node = link_all fm rs (link fm q node).
Proof. reflexivity. Qed.

Lemma link_all_profile fm rs node :
  profile (link_all fm rs node) = profile node.
Proof.
  revert node. induction rs as [|q rs IH]; intros node.
  - reflexivity.
  - rewrite link_all_cons, IH. apply link_profile.
Qed.

(** A famc pointer that is absent or resolves to no family leaves the
    node as it was. *)
Lemma add_parents_dangling fm p node :
  (∀ fc, famc p = Some fc → fm !! fc = None) →
  add_parents fm p node = node.
Proof.
  intros H. unfold add_parents. destruct (famc p) as [fc|]; [|reflexivity].
  rewrite (H fc eq_refl). destruct (truthy fc); reflexivity.
Qed.

Lemma link_all_dangling fm rs node :
  (∀ q, q ∈ rs → ∀ fc, famc q = Some fc → fm !! fc = None) →
  parents (link_all fm rs node) = parents node ∧
  siblings (link_all fm rs node) = siblings node.
Proof.
  revert node. induction rs as [|q rs IH]; intros node H.
  - split; reflexivity.
  - destruct (IH (link fm q node)) as [Hp Hs].
    { intros r Hr. apply H. right. assumption. }
    rewrite link_all_cons, Hp, Hs.
    rewrite link_parents, link_siblings.
    rewrite add_parents_dangling by (apply H; left). split; reflexivity.
Qed.

(** A fams entry that resolves to no family leaves the node as it was. *)
Lemma add_family_dangling fm p node famId :
  fm !! famId = None → add_family fm p node famId = node.
Proof. intros H. unfold add_family. rewrite H. reflexivity. Qed.

Lemma add_parents_links fm p p' node node' :
  profile_id p' = profile_id p → famc p' = famc p →
  links node' = links node →
  links (add_parents fm p' node') = links (add_parents fm p node).
Proof.
  intros Hid Hfc Hl. unfold add_parents. rewrite Hid, Hfc.
  destruct (famc p) as [fc|]; [|assumption].
  destruct (truthy fc); [|assumption].
  destruct (fm !! fc); [|assumption].
  unfold links in *. simpl. congruence.
Qed.

Lemma add_family_links fm p p' node node' famId :
  profile_id p' = profile_id p → links node' = links node →
  links (add_family fm p' node' famId) = links (add_family fm p node famId).
Proof.
  intros Hid Hl. unfold add_family, spouse_of. rewrite Hid.
  destruct (fm !! famId); [|assumption].
  unfold links in *. simpl. congruence.
Qed.

Lemma fold_add_family_pruned (fs : list Family) p p' l node node' :
  profile_id p' = profile_id p → links node' = links node →
  links (foldl (add_family (families_of fs) p') node'
               (filter (λ famId, famId ∈ family_id <$> fs) l)) =
  links (foldl (add_family (families_of fs) p) node l).
Proof.
  intros Hid. revert node node'.
  induction l as [|famId l IH]; intros node node' Hl; simpl.
  - assumption.
  - rewrite filter_cons. destruct (decide (famId ∈ family_id <$> fs)) as [Hin|Hout].
    + simpl. apply IH, add_family_links; assumption.
    + rewrite (add_family_dangling _ p node famId)
        by (apply families_of_None; assumption).
      apply IH. assumption.
Qed.

Lemma link_pruned (fs : list Family) p node node' :
  links node' = links node →
  links (link (families_of fs) (prune_profile fs p) node') =
  links (link (families_of fs) p node).
Proof.
  intros Hl. unfold link.
  assert (Hfams : opt_list (fams (prune_profile fs p)) =
                  filter (λ famId, famId ∈ family_id <$> fs) (opt_list (fams p))).
  { simpl. destruct (fams p); reflexivity. }
  rewrite Hfams. apply fold_add_family_pruned; [reflexivity|].
  apply add_parents_links; [reflexivity|reflexivity|assumption].
Qed.

Lemma link_all_pruned (fs : list Family) rs node node' :
  links node' = links node →
  links (link_all (families_of fs) (prune_profile fs <$> rs) node') =
  links (link_all (families_of fs) rs node).
Proof.
  revert node node'. induction rs as [|q rs IH]; intros node node' Hl.
  - assumption.
  - rewrite fmap_cons, !link_all_cons. apply IH, link_pruned. assumption.
Qed.

Lemma records_pruned (fs : list Family) k ps :
  records k (prune_profile fs <$> ps) = prune_profile fs <$> records k ps.
Proof.
  induction ps as [|p ps IH]; [reflexivity|].
  rewrite fmap_cons, !records_cons. simpl.
  destruct (decide (profile_id p = k)); rewrite IH; reflexivity.
Qed.

(* ===================================================================== *)
(* Properties of build                                                   *)
(* ===================================================================== *)

Lemma records_nonempty k (ps : list Profile) :
  is_Some (last (records k ps)) ↔ k ∈ profile_id <$> ps.
Proof.
  split.
  - intros [p Hp]. apply last_Some_elem_of in Hp.
    rewrite <- (records_id _ _ _ Hp).
    apply list_elem_of_fmap_2. eapply records_elem, Hp.
  - intros Hk. apply list_elem_of_fmap in Hk as (p & -> & Hp).
    apply records_own in Hp.
    destruct (records (profile_id p) ps) as [|r rs]; [inversion Hp|].
    rewrite last_cons. destruct (last rs); eauto.
Qed.

(** C9. build never fails: the first pass stores a node under the id of
    every individual of the model, so the lookup of the second pass
    always finds one; and the keys of the returned individuals map are
    exactly the ids of the model's individuals. Nothing is assumed of
    the model: ids may repeat and pointers may dangle. *)
Theorem build_total_keys (data : GedcomData) :
  (∀ p, p ∈ indis data →
        is_Some (first_pass (indis data) !! profile_id p)) ∧
  ∃ g, build data = Some g ∧
       dom (individuals g) = list_to_set (profile_id <$> indis data).
Proof.
  split; [intros p; apply first_pass_is_Some|].
  destruct (build_spec data) as (g & Hg & _ & Hlook).
  exists g. split; [assumption|].
  apply set_eq. intros k.
  rewrite elem_of_dom, elem_of_list_to_set, Hlook, fmap_is_Some.
  apply records_nonempty.
Qed.

(** Dangling famc pointers, whatever the ids: if no record that carries
    the id of an individual has a famc that is the id of a family, the
    node of the individual has no parent pair and no siblings. *)
Lemma dangling_famc_general (data : GedcomData) (g : RelationshipGraph)
    (p : Profile) :
  build data = Some g →
  p ∈ indis data →
  (∀ q fc, q ∈ indis data → profile_id q = profile_id p →
           famc q = Some fc → fc ∉ family_id <$> data_fams data) →
  ∃ node, individuals g !! profile_id p = Some node ∧
          parents node = None ∧ siblings node = [].
Proof.
  intros Hb Hp Hdang.
  destruct (build_spec data) as (g0 & Hg & _ & Hlook).
  rewrite Hb in Hg. injection Hg as <-.
  rewrite Hlook.
  destruct (proj2 (records_nonempty (profile_id p) (indis data)))
    as [p0 Hp0]; [apply list_elem_of_fmap_2; assumption|].
  rewrite Hp0. simpl. eexists. split; [reflexivity|].
  apply (link_all_dangling _ _ (basic_node p0)).
  intros q Hq fc Hfc. apply families_of_None.
  apply (Hdang q fc); [eapply records_elem, Hq|eapply records_id, Hq|assumption].
Qed.

(** In a list of unique ids, two records with the same id are one
    record. *)
Lemma unique_id_record (ps : list Profile) (p q : Profile) :
  NoDup (profile_id <$> ps) →
  p ∈ ps → q ∈ ps → profile_id q = profile_id p → q = p.
Proof.
  intros Hnd Hp Hq Hid.
  apply list_elem_of_lookup in Hp as [i Hi].
  apply list_elem_of_lookup in Hq as [j Hj].
  assert (i = j) as ->.
  { eapply NoDup_lookup; [exact Hnd| |];
      rewrite list_lookup_fmap; [rewrite Hi|rewrite Hj]; simpl;
      [reflexivity|f_equal; exact Hid]. }
  congruence.
Qed.

(** The invariant of unique ids is needed for C3: when two records carry
    one id, the node keeps the parents and siblings found through the
    first record although the famc of the second record is the id of no
    family. *)
Remark repeated_id_keeps_parents :
  ¬ (∀ (data : GedcomData) (p : Profile) (fc : string),
       p ∈ indis data → famc p = Some fc →
       fc ∉ family_id <$> data_fams data →
       ∃ g node, build data = Some g ∧
                 individuals g !! profile_id p = Some node ∧
                 parents node = None ∧ siblings node = []).
Proof.
  intros H.
  pose (x1 := mkProfile "X" None None None (Some "F") None None None).
  pose (x2 := mkProfile "X" None None None (Some "G") None None None).
  pose (f := mkFamily "F" (Some "A") None (Some ["X"; "Y"]) None).
  destruct (H (mkGedcomData [x1; x2] [f]) x2 "G") as (g & node & Hg & Hn & Hp & _).
  - right. left.
  - reflexivity.
  - simpl. intros Hin. apply list_elem_of_singleton in Hin. discriminate.
  - vm_compute in Hg. injection Hg as <-.
    vm_compute in Hn. injection Hn as <-. discriminate.
Qed.

(** C3. For every input model build does not fail. In a model whose
    individuals have unique ids (the invariant of the normalized model),
    every individual whose famc is the id of no family of the model has
    a node without parent pair and with an empty sibling list. Likewise
    a fams entry that is the id of no family contributes no spouse and
    no child entry: it leaves the node as it is, and the model without
    such entries yields, under every key, a node with the same parents,
    spouses, children and siblings. *)
Theorem dangling_pointers_tolerated (data : GedcomData) :
  ∃ g, build data = Some g ∧
    (NoDup (profile_id <$> indis data) →
     ∀ p fc, p ∈ indis data → famc p = Some fc →
       fc ∉ family_id <$> data_fams data →
       ∃ node, individuals g !! profile_id p = Some node ∧
               parents node = None ∧ siblings node = []) ∧
    (∀ p node famId, famId ∉ family_id <$> data_fams data →
       add_family (families_of (data_fams data)) p node famId = node) ∧
    ∃ g', build (prune_fams data) = Some g' ∧
          ∀ k, links <$> individuals g' !! k = links <$> individuals g !! k.
Proof.
  destruct (build_spec data) as (g & Hg & _ & Hlook).
  exists g. split; [assumption|]. split; [|split].
  - intros Hnd p fc Hp Hfc Hdang.
    apply (dangling_famc_general data g p Hg Hp).
    intros q fc' Hq Hid Hfc'.
    rewrite (unique_id_record _ _ _ Hnd Hp Hq Hid) in Hfc'.
    congruence.
  - intros p node famId Hno. apply add_family_dangling, families_of_None, Hno.
  - destruct (build_spec (prune_fams data)) as (g' & Hg' & _ & Hlook').
    exists g'. split; [assumption|]. intros k.
    rewrite Hlook', Hlook. simpl. rewrite records_pruned, fmap_last.
    destruct (last (records k (indis data))) as [p0|]; [|reflexivity].
    simpl. f_equal. apply link_all_pruned. reflexivity.
Qed.

(** The witness of C3: an individual whose famc and fams point at
    families the model does not have, next to a family the model has. *)
Lemma dangling_pointers_tolerated_witness :
  let x := mkProfile "X" None None None (Some "G") (Some ["H"]) None None in
  let y := mkProfile "Y" None None None (Some "F") None None None in
  let f := mkFamily "F" (Some "A") None (Some ["Y"]) None in
  ∃ g node, build (mkGedcomData [x; y] [f]) = Some g ∧
            individuals g !! "X" = Some node ∧
            parents node = None ∧ siblings node = [].
Proof.
  intros x y f.
  destruct (dangling_pointers_tolerated (mkGedcomData [x; y] [f]))
    as (g & Hg & Hfamc & _).
  destruct (Hfamc ltac:(compute_done) x "G") as (node & Hnode & Hp & Hs).
  - left.
  - reflexivity.
  - simpl. intros Hin. apply list_elem_of_singleton in Hin. discriminate.
  - exists g, node. repeat split; assumption.
Defined.

(* ---- the entries one family adds to the node of a spouse ---- *)

Lemma add_family_spouses_incl fm p node famId x :
  x ∈ spouses node → x ∈ spouses (add_family fm p node famId).
Proof.
  intros Hx. unfold add_family. destruct (fm !! famId); [|assumption].
  simpl. apply elem_of_app. left. assumption.
Qed.

Lemma add_family_children_incl fm p node famId x :
  x ∈ children node → x ∈ children (add_family fm p node famId).
Proof.
  intros Hx. unfold add_family. destruct (fm !! famId); [|assumption].
  simpl. apply elem_of_app. left. assumption.
Qed.

Lemma fold_add_family_incl fm p l :
  ∀ node,
    (∀ x, x ∈ spouses node → x ∈ spouses (foldl (add_family fm p) node l)) ∧
    (∀ x, x ∈ children node → x ∈ children (foldl (add_family fm p) node l)).
Proof.
  induction l as [|famId l IH]; intros node; simpl.
  - split; intros x Hx; assumption.
  - destruct (IH (add_family fm p node famId)) as [IHs IHc].
    split; intros x Hx.
    + apply IHs, add_family_spouses_incl, Hx.
    + apply IHc, add_family_children_incl, Hx.
Qed.

Lemma link_spouse fm p node famId family s :
  famId ∈ opt_list (fams p) → fm !! famId = Some family →
  spouse_of family p = Some s → truthy s = true →
  (s, famId) ∈ spouses (link fm p node).
Proof.
  intros Hin Hfam Hsp Hs. unfold link.
  generalize (add_parents fm p node) as n.
  induction (opt_list (fams p)) as [|f l IH]; intros n; [inversion Hin|].
  simpl. apply elem_of_cons in Hin as [<-|Hin]; [|apply IH, Hin].
  apply fold_add_family_incl. unfold add_family. rewrite Hfam. simpl.
  rewrite Hsp. simpl. rewrite Hs.
  apply elem_of_app. right. left.
Qed.

Lemma link_child fm p node famId family c :
  famId ∈ opt_list (fams p) → fm !! famId = Some family →
  c ∈ opt_list (family_children family) →
  (c, famId) ∈ children (link fm p node).
Proof.
  intros Hin Hfam Hc. unfold link.
  generalize (add_parents fm p node) as n.
  induction (opt_list (fams p)) as [|f l IH]; intros n; [inversion Hin|].
  simpl. apply elem_of_cons in Hin as [<-|Hin]; [|apply IH, Hin].
  apply fold_add_family_incl. unfold add_family. rewrite Hfam. simpl.
  apply elem_of_app. right.
  apply (list_elem_of_fmap_2 (λ childId, (childId, famId))). assumption.
Qed.

(** With unique ids the node of an individual is its basic node linked
    once. *)
Lemma build_unique (data : GedcomData) :
  NoDup (profile_id <$> indis data) →
  ∃ g, build data = Some g ∧
       families g = families_of (data_fams data) ∧
       ∀ p, p ∈ indis data →
            individuals g !! profile_id p =
            Some (link (families_of (data_fams data)) p (basic_node p)).
Proof.
  intros Hnd. destruct (build_spec data) as (g & Hg & Hf & Hlook).
  exists g. split; [assumption|]. split; [assumption|].
  intros p Hp. rewrite Hlook, (records_unique _ _ Hnd Hp). reflexivity.
Qed.

(** C1. In a normalized model (unique ids) that has a family F with
    husband-reference A, wife-reference B and the one child-reference C,
    and individuals A and B that list F in fams and an individual C
    whose famc is F, build returns a graph in which B is a spouse of A
    and A a spouse of B (both through F), C is a child of A and of B
    (paired with F), and C has no siblings. A reference is a non-empty
    string. *)
Theorem build_end_to_end (data : GedcomData) (family : Family)
    (pA pB pC : Profile) :
  NoDup (profile_id <$> indis data) →
  NoDup (family_id <$> data_fams data) →
  family ∈ data_fams data →
  husb family = Some (profile_id pA) →
  wife family = Some (profile_id pB) →
  family_children family = Some [profile_id pC] →
  pA ∈ indis data → pB ∈ indis data → pC ∈ indis data →
  truthy (profile_id pA) = true → truthy (profile_id pB) = true →
  family_id family ∈ opt_list (fams pA) →
  family_id family ∈ opt_list (fams pB) →
  famc pC = Some (family_id family) →
  ∃ g nA nB nC,
    build data = Some g ∧
    individuals g !! profile_id pA = Some nA ∧
    individuals g !! profile_id pB = Some nB ∧
    individuals g !! profile_id pC = Some nC ∧
    (profile_id pB, family_id family) ∈ spouses nA ∧
    (profile_id pA, family_id family) ∈ spouses nB ∧
    (profile_id pC, family_id family) ∈ children nA ∧
    (profile_id pC, family_id family) ∈ children nB ∧
    siblings nC = [].
Proof.
  intros Hnd Hndf Hfam Hh Hw Hc HA HB HC HtA HtB HfA HfB Hfc.
  destruct (build_unique data Hnd) as (g & Hg & _ & Hnode).
  pose proof (families_of_lookup _ _ Hndf Hfam) as Hlook.
  exists g. do 3 eexists. split; [exact Hg|].
  split; [apply Hnode, HA|]. split; [apply Hnode, HB|].
  split; [apply Hnode, HC|].
  assert (HcIn : profile_id pC ∈ opt_list (family_children family))
    by (rewrite Hc; left).
  repeat split.
  - eapply link_spouse; [exact HfA|exact Hlook| |exact HtB].
    unfold spouse_of, strict_eq. rewrite Hh, bool_decide_eq_true_2 by reflexivity.
    assumption.
  - eapply link_spouse; [exact HfB|exact Hlook| |exact HtA].
    unfold spouse_of, strict_eq. rewrite Hh.
    destruct (bool_decide_reflect (profile_id pA = profile_id pB)) as [E|_].
    + rewrite Hw, E. reflexivity.
    + reflexivity.
  - eapply link_child; [exact HfA|exact Hlook|exact HcIn].
  - eapply link_child; [exact HfB|exact Hlook|exact HcIn].
  - rewrite link_siblings. unfold add_parents. rewrite Hfc.
    destruct (truthy (family_id family)); [|reflexivity].
    rewrite Hlook. simpl. rewrite Hc. simpl.
    rewrite filter_cons, decide_False by (intros H; apply H; reflexivity).
    reflexivity.
Qed.

(** The witness of C1: the model of the specification's example. *)
Lemma build_end_to_end_witness :
  let a := mkProfile "A" None None None None (Some ["F"]) None None in
  let b := mkProfile "B" None None None None (Some ["F"]) None None in
  let c := mkProfile "C" None None None (Some "F") None None None in
  let f := mkFamily "F" (Some "A") (Some "B") (Some ["C"]) None in
  ∃ g nA nB nC,
    build (mkGedcomData [a; b; c] [f]) = Some g ∧
    individuals g !! "A" = Some nA ∧
    individuals g !! "B" = Some nB ∧
    individuals g !! "C" = Some nC ∧
    ("B", "F") ∈ spouses nA ∧ ("A", "F") ∈ spouses nB ∧
    ("C", "F") ∈ children nA ∧ ("C", "F") ∈ children nB ∧
    siblings nC = [].
Proof.
  intros a b c f.
  apply (build_end_to_end (mkGedcomData [a; b; c] [f]) f a b c);
    try reflexivity; try (simpl; compute_done); simpl; repeat constructor.
Defined.

(* ===================================================================== *)
(* Properties of getAncestors                                            *)
(* ===================================================================== *)

Section Traversal.

Variable graph : RelationshipGraph.
Variable generations : Generations.

Implicit Types (st : gset string * list Profile) (i : string).

Lemma extends_refl st : extends graph st st.
Proof. split; [reflexivity|tauto]. Qed.

Lemma extends_trans st1 st2 st3 :
  extends graph st1 st2 → extends graph st2 st3 → extends graph st1 st3.
Proof. intros [H1 H2] [H3 H4]. split; [set_solver|tauto]. Qed.

Lemma unvisited_mono (v v' : gset string) :
  v ⊆ v' → unvisited graph v' ≤ unvisited graph v.
Proof. intros H. unfold unvisited. apply subseteq_size. set_solver. Qed.

Lemma unvisited_mark (v : gset string) i :
  i ∈ dom (individuals graph) → i ∉ v →
  unvisited graph ({[i]} ∪ v) < unvisited graph v.
Proof.
  intros Hdom Hv. unfold unvisited. apply subset_size.
  apply strict_spec_alt. split; [set_solver|].
  intros Heq. assert (Hi : i ∈ dom (individuals graph) ∖ v) by set_solver.
  rewrite <- Heq in Hi. set_solver.
Qed.

Lemma forEachM_extends {A : Type} (f : gset string * list Profile → A →
    option (gset string * list Profile)) (n : nat) (l : list A) :
  (∀ st x, unvisited graph st.1 < n → ∃ st', f st x = Some st' ∧ extends graph st st') →
  ∀ st, unvisited graph st.1 < n →
        ∃ st', forEachM f l st = Some st' ∧ extends graph st st'.
Proof.
  intros Hf. induction l as [|x l IH]; intros st Hst; simpl.
  - exists st. split; [reflexivity|apply extends_refl].
  - destruct (Hf st x Hst) as (st1 & -> & Hext1).
    destruct (IH st1) as (st2 & Hrun & Hext2).
    { eapply Nat.le_lt_trans; [apply unvisited_mono, Hext1|assumption]. }
    exists st2. split; [assumption|]. eapply extends_trans; eassumption.
Qed.

(** Termination: a call returns whenever the fuel exceeds the number of
    unmarked keys. *)
Lemma traverse_returns fuel :
  ∀ st i depth, unvisited graph st.1 < fuel →
    ∃ st', traverse graph generations fuel st i depth = Some st' ∧
           extends graph st st'.
Proof.
  induction fuel as [|fuel IH]; intros st i depth Hfuel; [lia|].
  simpl.
  destruct (exceeds depth generations || bool_decide (i ∈ st.1)) eqn:Hstop.
  - exists st. split; [reflexivity|apply extends_refl].
  - apply orb_false_iff in Hstop as [_ Hnew].
    apply bool_decide_eq_false in Hnew.
    destruct (individuals graph !! i) as [node|] eqn:Hnode.
    + destruct (forEachM_extends
        (λ st' parentId,
           if truthy parentId
           then traverse graph generations fuel st' parentId (S depth)
           else Some st')
        fuel (opt_list (parents node))) with
        (st := ({[i]} ∪ st.1, st.2 ++ [profile node]))
        as (st' & Hrun & Hext).
      * intros st1 x Hst1. destruct (truthy x).
        -- apply IH. assumption.
        -- exists st1. split; [reflexivity|apply extends_refl].
      * simpl. assert (Hlt : unvisited graph ({[i]} ∪ st.1) < unvisited graph st.1).
        { apply unvisited_mark; [|assumption].
          apply elem_of_dom. eauto. }
        lia.
      * exists st'. split; [assumption|].
        eapply extends_trans; [|exact Hext].
        split; simpl; [set_solver|].
        intros Hkeyed [Hnd Hin]. split; simpl.
        -- rewrite fmap_app. apply NoDup_app. split; [assumption|].
           split; [|apply NoDup_singleton].
           intros x Hx Hx'. apply list_elem_of_singleton in Hx'. subst x.
           rewrite (Hkeyed _ _ Hnode) in Hx.
           apply list_elem_of_fmap in Hx as (p & Hid & Hp).
           apply Hnew. rewrite Hid. apply Hin. assumption.
        -- intros p Hp. apply elem_of_app in Hp as [Hp|Hp].
           ++ apply elem_of_union_r, Hin, Hp.
           ++ apply list_elem_of_singleton in Hp. subst p.
              rewrite (Hkeyed _ _ Hnode). set_solver.
    + exists ({[i]} ∪ st.1, st.2). split; [reflexivity|].
      split; simpl; [set_solver|].
      intros _ [Hnd Hin]. split; simpl; [assumption|].
      intros p Hp. apply elem_of_union_r, Hin, Hp.
Qed.

(** getAncestors returns, and on a keyed graph graph no id occurs twice. *)
Lemma getAncestors_returns i :
  ∃ r, getAncestors i graph generations = Some r ∧
       (keyed graph → NoDup (profile_id <$> r)).
Proof.
  unfold getAncestors.
  destruct (traverse_returns (enough_fuel graph) (∅, []) i 0)
    as (st' & Hrun & _ & Htidy).
  - unfold enough_fuel, unvisited. simpl.
    rewrite difference_empty_L, size_dom. lia.
  - rewrite Hrun. exists st'.2. split; [reflexivity|].
    intros Hkeyed. apply Htidy; [assumption|].
    split; simpl; [apply NoDup_nil_2|]. intros p Hp. inversion Hp.
Qed.

End Traversal.

(** A built graph stores every node under the id of its profile. *)
Lemma build_keyed (data : GedcomData) (g : RelationshipGraph) :
  build data = Some g → keyed g.
Proof.
  intros Hb. destruct (build_spec data) as (g' & Hg & _ & Hlook).
  rewrite Hb in Hg. injection Hg as <-.
  intros k node Hnode. rewrite Hlook in Hnode.
  destruct (last (records k (indis data))) as [p0|] eqn:Hlast; [|discriminate].
  injection Hnode as <-. rewrite link_all_profile. simpl.
  apply last_Some_elem_of in Hlast. eapply records_id, Hlast.
Qed.

(* ---- more fuel changes nothing ---- *)

Lemma forEachM_ext_Some {A S : Type} (f f' : S → A → option S) (l : list A) :
  (∀ s x r, f s x = Some r → f' s x = Some r) →
  ∀ s r, forEachM f l s = Some r → forEachM f' l s = Some r.
Proof.
  intros Hf. induction l as [|x l IH]; intros s r; simpl; [tauto|].
  destruct (f s x) as [s1|] eqn:E; [|discriminate].
  rewrite (Hf _ _ _ E). apply IH.
Qed.

Lemma traverse_fuel_S graph generations fuel :
  ∀ st i depth r,
    traverse graph generations fuel st i depth = Some r →
    traverse graph generations (S fuel) st i depth = Some r.
Proof.
  induction fuel as [|fuel IH]; intros st i depth r; [discriminate|].
  intros H. simpl in H. change (traverse graph generations (S (S fuel)) st i depth)
    with (if exceeds depth generations || bool_decide (i ∈ st.1) then Some st
          else match individuals graph !! i with
               | None => Some ({[i]} ∪ st.1, st.2)
               | Some node =>
                   forEachM
                     (λ st' parentId,
                        if truthy parentId
                        then traverse graph generations (S fuel) st' parentId
                               (S depth)
                        else Some st')
                     (opt_list (parents node))
                     ({[i]} ∪ st.1, st.2 ++ [profile node])
               end).
  destruct (exceeds depth generations || bool_decide (i ∈ st.1)); [assumption|].
  destruct (individuals graph !! i) as [node|]; [|assumption].
  revert H. apply forEachM_ext_Some. intros s x r'.
  destruct (truthy x); [apply IH|tauto].
Qed.

Lemma traverse_fuel_mono graph generations fuel fuel' st i depth r :
  fuel ≤ fuel' →
  traverse graph generations fuel st i depth = Some r →
  traverse graph generations fuel' st i depth = Some r.
Proof.
  induction 1 as [|fuel' _ IH]; [tauto|].
  intros H. apply traverse_fuel_S, IH, H.
Qed.

(** C2. On the graph built from any model, for every start id and every
    generation bound (finite or not), getAncestors returns, and no
    profile id occurs twice in the list it returns. The model may make
    an individual its own ancestor. The list does not depend on the
    fuel of the model: any larger amount gives the same list. *)
Theorem getAncestors_terminates_nodup (data : GedcomData)
    (profileId : string) (generations : Generations) :
  ∃ g r, build data = Some g ∧
         getAncestors profileId g generations = Some r ∧
         NoDup (profile_id <$> r) ∧
         ∀ fuel, enough_fuel g ≤ fuel →
                 snd <$> traverse g generations fuel (∅, []) profileId 0 =
                 Some r.
Proof.
  destruct (build_spec data) as (g & Hg & _).
  destruct (getAncestors_returns g generations profileId) as (r & Hr & Hnd).
  exists g, r. split; [assumption|]. split; [assumption|].
  split; [apply Hnd; eapply build_keyed, Hg|].
  intros fuel Hfuel. unfold getAncestors in Hr.
  destruct (traverse g generations (enough_fuel g) (∅, []) profileId 0)
    as [st|] eqn:E; [|discriminate].
  rewrite (traverse_fuel_mono _ _ _ _ _ _ _ _ Hfuel E). assumption.
Qed.

(* ---- one generation ---- *)

Lemma forEachM_pure {A S : Type} (f : S → A → option S) (h : S → A → S)
    (l : list A) :
  (∀ s x, f s x = Some (h s x)) →
  ∀ s, forEachM f l s = Some (foldl h s l).
Proof.
  intros Hf. induction l as [|x l IH]; intros s; simpl; [reflexivity|].
  rewrite Hf. apply IH.
Qed.

Lemma foldl_same {A S : Type} (h : S → A → S) (l : list A) :
  (∀ s x, h s x = s) → ∀ s, foldl h s l = s.
Proof.
  intros Hh. induction l as [|x l IH]; intros s; simpl; [reflexivity|].
  rewrite Hh. apply IH.
Qed.

(** At depth 2 of a one-generation query a call returns at once. *)
Lemma traverse_beyond graph fuel st i :
  traverse graph (Finite 1) (S fuel) st i 2 = Some st.
Proof. reflexivity. Qed.

(** At depth 1 of a one-generation query a call visits its id and goes
    no further. *)
Lemma traverse_parent graph fuel st i :
  traverse graph (Finite 1) (S (S fuel)) st i 1 =
  Some (if bool_decide (i ∈ st.1) then st
        else ({[i]} ∪ st.1,
              st.2 ++ match individuals graph !! i with
                      | Some node => [profile node]
                      | None => []
                      end)).
Proof.
  change (traverse graph (Finite 1) (S (S fuel)) st i 1)
    with (if bool_decide (i ∈ st.1) then Some st
          else match individuals graph !! i with
               | None => Some ({[i]} ∪ st.1, st.2)
               | Some node =>
                   forEachM
                     (λ st' parentId,
                        if truthy parentId
                        then traverse graph (Finite 1) (S fuel) st' parentId 2
                        else Some st')
                     (opt_list (parents node))
                     ({[i]} ∪ st.1, st.2 ++ [profile node])
               end).
  destruct (bool_decide (i ∈ st.1)); [reflexivity|].
  destruct (individuals graph !! i) as [node|].
  - rewrite (forEachM_pure _ (λ s _, s)).
    + rewrite foldl_same by reflexivity. reflexivity.
    + intros s x. destruct (truthy x); reflexivity.
  - rewrite app_nil_r. reflexivity.
Qed.

(** A one-generation query from an individual of the graph. *)
Lemma traverse_start graph fuel i node :
  individuals graph !! i = Some node →
  traverse graph (Finite 1) (S (S (S fuel))) (∅, []) i 0 =
  Some (foldl (visit_parent graph) ({[i]} ∪ ∅, [profile node])
              (opt_list (parents node))).
Proof.
  intros Hnode.
  change (traverse graph (Finite 1) (S (S (S fuel))) (∅, []) i 0)
    with (if bool_decide (i ∈ (∅ : gset string)) then Some (∅, [])
          else match individuals graph !! i with
               | None => Some ({[i]} ∪ ∅, [])
               | Some node =>
                   forEachM
                     (λ st' parentId,
                        if truthy parentId
                        then traverse graph (Finite 1) (S (S fuel)) st'
                               parentId 1
                        else Some st')
                     (opt_list (parents node))
                     ({[i]} ∪ ∅, [] ++ [profile node])
               end).
  rewrite bool_decide_eq_false_2 by set_solver. rewrite Hnode.
  apply forEachM_pure. intros s x. unfold visit_parent.
  destruct (truthy x); [|reflexivity]. apply traverse_parent.
Qed.

Lemma visit_parents_spec graph (ps : list string) :
  ∀ st,
    (∃ rest, (foldl (visit_parent graph) st ps).2 = st.2 ++ rest ∧
             length rest ≤ length ps) ∧
    ∀ q, q ∈ (foldl (visit_parent graph) st ps).2 ↔
         q ∈ st.2 ∨
         ∃ pid pn, pid ∈ ps ∧ truthy pid = true ∧ (pid ∉ st.1) ∧
                   individuals graph !! pid = Some pn ∧ q = profile pn.
Proof.
  induction ps as [|a ps IH]; intros st; simpl.
  { split.
    - exists []. rewrite app_nil_r. split; [reflexivity|simpl; lia].
    - intros q. split; [tauto|]. intros [H|(pid & pn & H & _)]; [assumption|].
      inversion H. }
  destruct (IH (visit_parent graph st a)) as [(rest & Hrest & Hlen) Hmem].
  assert (Hskip : visit_parent graph st a = st →
    ¬ (truthy a = true ∧ a ∉ st.1) →
    (∃ rest0, (foldl (visit_parent graph) (visit_parent graph st a) ps).2 =
              st.2 ++ rest0 ∧ length rest0 ≤ S (length ps)) ∧
    ∀ q, q ∈ (foldl (visit_parent graph) (visit_parent graph st a) ps).2 ↔
         q ∈ st.2 ∨
         ∃ pid pn, pid ∈ a :: ps ∧ truthy pid = true ∧ (pid ∉ st.1) ∧
                   individuals graph !! pid = Some pn ∧ q = profile pn).
  { intros Hsame Hnot. rewrite Hsame in Hrest, Hmem |- *.
    split; [exists rest; split; [assumption|lia]|].
    intros q. rewrite Hmem.
    split; (intros [H|(pid & pn & H1 & H2 & H3 & H4)]; [left; assumption|]).
    - right. exists pid, pn. repeat split; try tauto. right. assumption.
    - right. exists pid, pn. repeat split; try tauto.
      apply elem_of_cons in H1 as [->|H1]; [tauto|assumption]. }
  destruct (truthy a) eqn:Ha.
  2: { apply Hskip; [unfold visit_parent; rewrite Ha; reflexivity|].
       intros [H _]. discriminate. }
  destruct (decide (a ∈ st.1)) as [Hin|Hnin].
  { apply Hskip; [|tauto].
    unfold visit_parent. rewrite Ha, bool_decide_eq_true_2; done. }
  clear Hskip.
  assert (Hv : visit_parent graph st a =
               ({[a]} ∪ st.1,
                st.2 ++ match individuals graph !! a with
                        | Some node => [profile node]
                        | None => []
                        end)).
  { unfold visit_parent. rewrite Ha, bool_decide_eq_false_2; done. }
  rewrite Hv in Hrest, Hmem |- *. simpl in Hrest, Hmem. split.
  - eexists. rewrite Hrest, <- app_assoc. split; [reflexivity|].
    rewrite length_app. destruct (individuals graph !! a); simpl; lia.
  - intros q. rewrite Hmem. clear Hmem Hrest Hv. split.
    + intros [H|(pid & pn & H1 & H2 & H3 & H4)].
      * apply elem_of_app in H as [H|H]; [left; assumption|].
        right. destruct (individuals graph !! a) as [na|] eqn:Hna;
          [|inversion H].
        apply list_elem_of_singleton in H. subst q.
        exists a, na. repeat split; try assumption. left.
      * right. exists pid, pn. repeat split; try tauto.
        -- right. assumption.
        -- set_solver.
    + intros [H|(pid & pn & H1 & H2 & H3 & H4 & H5)].
      * left. apply elem_of_app. left. assumption.
      * destruct (decide (pid = a)) as [->|Hne].
        -- left. apply elem_of_app. right. rewrite H4. subst q. left.
        -- right. exists pid, pn. repeat split; try assumption.
           ++ apply elem_of_cons in H1 as [->|H1]; [contradiction|assumption].
           ++ set_solver.
Qed.

Lemma link_all_snoc fm rs q node :
  link_all fm (rs ++ [q]) node = link fm q (link_all fm rs node).
Proof. unfold link_all. rewrite foldl_app. reflexivity. Qed.

(** In a built graph, a node whose profile has a famc that resolves
    carries the husband and the wife of that family, as far as present,
    as its parents. *)
Lemma build_parents (data : GedcomData) g i node fc family :
  build data = Some g →
  individuals g !! i = Some node →
  famc (profile node) = Some fc → truthy fc = true →
  families g !! fc = Some family →
  parents node =
  Some (filter (λ s, truthy s = true)
               [or_empty (husb family); or_empty (wife family)]).
Proof.
  intros Hb Hnode Hfc Ht Hfam.
  destruct (build_spec data) as (g' & Hg & Hf & Hlook).
  rewrite Hb in Hg. injection Hg as <-.
  rewrite Hlook in Hnode. rewrite Hf in Hfam.
  destruct (last (records i (indis data))) as [p0|] eqn:Hlast; [|discriminate].
  injection Hnode as <-. rewrite link_all_profile in Hfc. simpl in Hfc.
  apply last_Some in Hlast as [rs ->].
  rewrite link_all_snoc, link_parents. unfold add_parents.
  rewrite Hfc, Ht, Hfam. reflexivity.
Qed.

Lemma elem_of_present_parents (family : Family) (pid : string) :
  pid ∈ filter (λ s, truthy s = true)
               [or_empty (husb family); or_empty (wife family)] ↔
  (husb family = Some pid ∨ wife family = Some pid) ∧ truthy pid = true.
Proof.
  rewrite list_elem_of_filter, !elem_of_cons, elem_of_nil.
  unfold or_empty. split.
  - intros [Ht [H|[H|[]]]]; (split; [|assumption]).
    + left. destruct (husb family); simpl in H; subst; [reflexivity|discriminate].
    + right. destruct (wife family); simpl in H; subst; [reflexivity|discriminate].
  - intros [[H|H] Ht]; (split; [assumption|]); rewrite H; simpl; tauto.
Qed.

(** C4. In a built graph, for an individual whose famc resolves to a
    family of the graph, getAncestors with one generation returns the
    profile of the individual followed by at most two more profiles, no
    id twice; its members are exactly the individual and the husband
    and wife of that family that the graph has a node for. So nothing
    is in the list on account of a second parent step. *)
Theorem getAncestors_one_generation (data : GedcomData)
    (g : RelationshipGraph) (i : string) (node : ProfileNode)
    (fc : string) (family : Family) :
  build data = Some g →
  individuals g !! i = Some node →
  famc (profile node) = Some fc → truthy fc = true →
  families g !! fc = Some family →
  ∃ rest,
    getAncestors i g (Finite 1) = Some (profile node :: rest) ∧
    length rest ≤ 2 ∧
    NoDup (profile_id <$> profile node :: rest) ∧
    ∀ q, q ∈ profile node :: rest ↔
         q = profile node ∨
         ∃ pid pn, (husb family = Some pid ∨ wife family = Some pid) ∧
                   truthy pid = true ∧
                   individuals g !! pid = Some pn ∧ q = profile pn.
Proof.
  intros Hb Hnode Hfc Ht Hfam.
  pose proof (build_parents _ _ _ _ _ _ Hb Hnode Hfc Ht Hfam) as Hps.
  destruct (getAncestors_returns g (Finite 1) i) as (r & Hr & Hnd).
  specialize (Hnd (build_keyed _ _ Hb)).
  assert (Hr' : r = (foldl (visit_parent g) ({[i]} ∪ ∅, [profile node])
                           (opt_list (parents node))).2).
  { unfold getAncestors in Hr.
    destruct (traverse g (Finite 1) (enough_fuel g) (∅, []) i 0) as [st|] eqn:E;
      [|discriminate].
    injection Hr as <-.
    apply (traverse_fuel_mono _ _ _ (S (S (S (enough_fuel g))))) in E; [|lia].
    rewrite (traverse_start _ _ _ _ Hnode) in E. injection E as <-.
    reflexivity. }
  destruct (visit_parents_spec g (opt_list (parents node))
              ({[i]} ∪ ∅, [profile node])) as [(rest & Hrest & Hlen) Hmem].
  rewrite <- Hr' in Hrest, Hmem. simpl in Hrest, Hmem.
  exists rest. rewrite Hr, Hrest. split; [reflexivity|].
  rewrite Hrest in Hnd, Hmem. split; [|split; [assumption|]].
  - rewrite Hps in Hlen. simpl in Hlen.
    etransitivity; [exact Hlen|]. apply (length_filter _ [_; _]).
  - intros q. rewrite Hmem, list_elem_of_singleton. rewrite Hps. simpl.
    split; (intros [H|(pid & pn & H1)]; [left; assumption|]).
    + destruct H1 as (H1 & H2 & H3 & H4 & H5). right. exists pid, pn.
      apply elem_of_present_parents in H1 as [H1 _]. tauto.
    + destruct H1 as (H1 & H2 & H3 & H4).
      destruct (decide (pid = i)) as [->|Hne].
      * left. rewrite Hnode in H3. congruence.
      * right. exists pid, pn. repeat split; try assumption.
        -- apply elem_of_present_parents. tauto.
        -- set_solver.
Qed.

(** The witness of C4: a child, its two parents and a grandfather. The
    query for the child returns the child and the parents only. *)
Lemma getAncestors_one_generation_witness :
  let person i fc fs := mkProfile i None None None fc fs None None in
  let data :=
    mkGedcomData
      [person "C" (Some "F") None; person "A" (Some "G") (Some ["F"]);
       person "B" None (Some ["F"]); person "GP" None (Some ["G"])]
      [mkFamily "F" (Some "A") (Some "B") (Some ["C"]) None;
       mkFamily "G" (Some "GP") None (Some ["A"]) None] in
  ∃ g r, build data = Some g ∧
         getAncestors "C" g (Finite 1) = Some r ∧
         profile_id <$> r = ["C"; "A"; "B"].
Proof.
  intros person data.
  destruct (build data) as [g|] eqn:Hb; [|vm_compute in Hb; discriminate].
  destruct (individuals g !! "C") as [node|] eqn:Hnode;
    [|vm_compute in Hb; injection Hb as <-; vm_compute in Hnode; discriminate].
  destruct (getAncestors_one_generation data g "C" node "F"
              (mkFamily "F" (Some "A") (Some "B") (Some ["C"]) None))
    as (rest & Hr & _); try assumption.
  - vm_compute in Hb. injection Hb as <-.
    vm_compute in Hnode. injection Hnode as <-. reflexivity.
  - reflexivity.
  - vm_compute in Hb. injection Hb as <-. vm_compute. reflexivity.
  - exists g, (profile node :: rest). split; [reflexivity|].
    split; [assumption|].
    vm_compute in Hb. injection Hb as <-.
    vm_compute in Hnode. injection Hnode as <-.
    vm_compute in Hr. injection Hr as <-. reflexivity.
Defined.

(** A model in which X and Y are each other's parent: the unbounded
    query returns, with each of them once. *)
Example getAncestors_on_a_cycle :
  let person i fc := mkProfile i None None None fc None None None in
  let data :=
    mkGedcomData
      [person "X" (Some "F"); person "Y" (Some "G")]
      [mkFamily "F" (Some "Y") None (Some ["X"]) None;
       mkFamily "G" (Some "X") None (Some ["Y"]) None] in
  match build data with
  | Some g => option_map (map profile_id) (getAncestors "X" g Unbounded)
  | None => None
  end = Some ["X"; "Y"].
Proof. vm_compute. reflexivity. Qed.

(* ===================================================================== *)
(* Properties of getImmediateFamily                                      *)
(* ===================================================================== *)

(** C10. For every graph and every id that is not a key of its
    individuals map, getImmediateFamily returns four empty lists. The
    function is total, so it raises nothing. *)
Theorem getImmediateFamily_unknown (graph : RelationshipGraph)
    (profileId : string) :
  individuals graph !! profileId = None →
  getImmediateFamily profileId graph =
  {| if_parents := []; if_spouses := []; if_children := [];
     if_siblings := [] |}.
Proof. intros H. unfold getImmediateFamily. rewrite H. reflexivity. Qed.

(** The witness of C10: an id the graph of a one-person model lacks. *)
Lemma getImmediateFamily_unknown_witness :
  let graph :=
    {| individuals :=
         {[ "A" := basic_node (mkProfile "A" None None None None None None None) ]};
       families := ∅ |} in
  getImmediateFamily "Z" graph =
  {| if_parents := []; if_spouses := []; if_children := [];
     if_siblings := [] |}.
Proof.
  intros graph. apply (getImmediateFamily_unknown graph "Z").
  vm_compute. reflexivity.
Defined.

(* ===================================================================== *)
(* Properties of the field parsers                                       *)
(* ===================================================================== *)

Lemma same_ignoring_case_upper (s t : string) :
  same_ignoring_case s t = String.eqb (toUpperCase s) (toUpperCase t).
Proof.
  revert t. induction s as [|a s IH]; intros [|b t]; simpl; try reflexivity.
  rewrite IH. reflexivity.
Qed.

(** C7, as stated, fails on the value MALE: it is none of M, F, X and
    OTHER, yet it is not mapped to unspecified. *)
Lemma normalizeSex_counterexample :
  ¬ (∀ s : string,
       s ≠ EmptyString →
       same_ignoring_case s "M" = false →
       same_ignoring_case s "F" = false →
       same_ignoring_case s "X" = false →
       same_ignoring_case s "OTHER" = false →
       normalizeSex (Some s) = Some U).
Proof.
  intros H. specialize (H "MALE"). vm_compute in H.
  assert (Some M = Some U) by (apply H; [discriminate|reflexivity..]).
  discriminate.
Qed.

(** C7, amended. Up to the case of its letters, the value M or MALE is
    mapped to male, F or FEMALE to female, X or OTHER to other, and any
    other non-empty value to unspecified; a missing or empty value
    leaves the sex unset. *)
Theorem normalizeSex_spec :
  normalizeSex None = None ∧
  normalizeSex (Some EmptyString) = None ∧
  ∀ s : string,
    s ≠ EmptyString →
    normalizeSex (Some s) =
    Some (if same_ignoring_case s "M" || same_ignoring_case s "MALE" then M
          else if same_ignoring_case s "F" || same_ignoring_case s "FEMALE"
               then F
          else if same_ignoring_case s "X" || same_ignoring_case s "OTHER"
               then X
          else U).
Proof.
  split; [reflexivity|]. split; [reflexivity|].
  intros s Hs. unfold normalizeSex.
  destruct s as [|c s]; [contradiction|].
  rewrite !same_ignoring_case_upper.
  change (truthy_opt (Some (String c s))) with true.
  change (or_empty (Some (String c s))) with (String c s).
  cbv iota.
  change (toUpperCase "M") with "M". change (toUpperCase "MALE") with "MALE".
  change (toUpperCase "F") with "F". change (toUpperCase "FEMALE") with "FEMALE".
  change (toUpperCase "X") with "X". change (toUpperCase "OTHER") with "OTHER".
  destruct (_ || _); [reflexivity|].
  destruct (_ || _); [reflexivity|].
  destruct (_ || _); reflexivity.
Qed.

(** The witness of C7: a value in mixed case. *)
Lemma normalizeSex_spec_witness :
  normalizeSex (Some "Female") = Some F ∧ normalizeSex (Some "?") = Some U.
Proof.
  destruct normalizeSex_spec as (_ & _ & H).
  split; (rewrite H; [reflexivity|discriminate]).
Defined.

(* ---- strings ---- *)










(* ---- digits ---- *)









(* ---- months ---- *)






(* ---- the name pattern ---- *)















